(** * Tiled nuclei counting and the benchmark kernel

    A shallow embedding of the two functions the teaching notebooks define
    themselves:

    - [count_nuclei], the border-corrected counter applied to every tile
      of a chunked image, and
    - [slow_thing], the deliberately slow kernel used for the
      serial-versus-parallel benchmark.

    [count_nuclei] is glue around the image-processing library imported as
    [cle]; the library is not part of the notebooks, so it enters the
    development as an interface ([Cle]) together with the part of its
    documented contract the counter relies on ([CleLaws]). *)

From Stdlib Require Import QArith Lqa.
From stdpp Require Import base option list list_numbers sets gmap.

(** ** Arrays *)

(** A two-dimensional array is the list of its rows. *)
Abbreviation array2 A := (list (list A)) (only parsing).

(** Intensity images hold floating-point numbers.  They are modelled by
    rationals: every value the counter computes is a half-integer, which
    binary floating point represents exactly. *)
Abbreviation tile := (list (list Q)) (only parsing).

(** A label image: background is 0, objects are positive integers. *)
Abbreviation label_image := (list (list nat)) (only parsing).

Module Array.

Definition ncols {A} (a : array2 A) : nat := length (hd [] a).

(** [a.shape].  An array without rows has shape (0, 0) here: numpy's
    shapes (0, n) with n > 0 have no counterpart among lists of rows. *)
Definition shape {A} (a : array2 A) : nat * nat := (length a, ncols a).

(** [a.ravel()], the elements row after row *)
Definition ravel {A} (a : array2 A) : list A := mjoin a.

(** [a.size], the number of elements *)
Definition size {A} (a : array2 A) : nat := length (ravel a).

Definition same_shape {A B} (a : array2 A) (b : array2 B) : Prop :=
  length <$> a = length <$> b.

(** All rows have the width the shape announces. *)
Definition rectangular {A} (a : array2 A) : Prop :=
  Forall (λ row, length row = ncols a) a.

(** The element in row [r] and column [c], if there is one. *)
Definition get {A} (a : array2 A) (r c : nat) : option A :=
  a !! r ≫= (.!! c).

(** Apply [f] to every element. *)
Definition map {A B} (f : A → B) (a : array2 A) : array2 B :=
  fmap (M:=list) f <$> a.

End Array.

(** ** Exceptions, standard output and the state of the device *)

Inductive exn : Type :=
  | ValueError      (* numpy: reduction of a zero-size array *)
  | IndexError      (* numpy: index out of bounds *)
  | RuntimeError (code : nat).  (* raised inside the library *)

Inductive result (A : Type) : Type :=
  | Ok (a : A)
  | Raise (e : exn).
Arguments Ok {A} a.
Arguments Raise {A} e.

(** What [print] writes: the two calls of [count_nuclei] print a fixed
    text followed by a shape, and a shape alone. *)
Inductive line : Type :=
  | ProcessingImageOfSize (s : nat * nat)
  | Shape (s : nat * nat).

(** The world a call runs in: the text printed so far and the state of
    the library's device [D] (its context, queue and settings such as
    the one toggled by [cle.set_wait_for_kernel_finish]). *)
Record world (D : Type) : Type := World {
  stdout : list line;
  device : D
}.
Arguments World {D} stdout device.
Arguments stdout {D} w.
Arguments device {D} w.

(** Computations that may print, use the device and raise. *)
Definition M (D A : Type) : Type := world D → result A * world D.

Global Instance M_ret {D} : MRet (M D) := λ A a w, (Ok a, w).

Global Instance M_bind {D} : MBind (M D) := λ A B k m w,
  match m w with
  | (Ok a, w') => k a w'
  | (Raise e, w') => (Raise e, w')
  end.

Definition print {D} (l : line) : M D unit :=
  λ w, (Ok tt, World (stdout w ++ [l]) (device w)).

(** A pure step that may raise. *)
Definition lift {D A} (r : result A) : M D A := λ w, (r, w).

(** A library call: it sees and updates the device only. *)
Definition call {D A} (f : D → result A * D) : M D A :=
  λ w, let '(r, d) := f (device w) in (r, World (stdout w) d).

(** The value a computation produces, and the world it leaves. *)
Definition value {D A} (m : M D A) (w : world D) : result A := fst (m w).
Definition after {D A} (m : M D A) (w : world D) : world D := snd (m w).


(** ** The image-processing library *)

(** The four operations of [cle] the counter calls.  Each runs on the
    device and may raise. *)
Class Cle (D : Type) : Type := {
  voronoi_otsu_labeling (image : tile) (spot_sigma : Q) :
    D → result label_image * D;
  mean_intensity_map (image : tile) (labels : label_image) :
    D → result tile * D;
  exclude_labels_with_map_values_within_range
    (values_map : tile) (label_map_input : label_image)
    (minimum_value_range maximum_value_range : Q) :
    D → result label_image * D;
  exclude_labels_on_edges (label_map_input : label_image) :
    D → result label_image * D
}.

(** [a.max()]: the largest element; a zero-size array has none, and the
    reduction raises. *)
Definition array_max (a : label_image) : result nat :=
  match Array.ravel a with
  | [] => Raise ValueError
  | px => Ok (max_list px)
  end.

(** ** The counter *)

(** The average of two counts, as the last lines of [count_nuclei]
    compute it. *)
Definition average (a b : nat) : Q := (inject_Z (Z.of_nat (a + b)) / 2)%Q.

(** [spot_sigma] is 3.5; [minimum_value_range] is not passed and has the
    library's default, 0.  The result is [np.asarray([[...]])], an array
    of shape (1, 1). *)
Definition count_nuclei {D} `{!Cle D} (image : tile) : M D (array2 Q) :=
  print (ProcessingImageOfSize (Array.shape image));;
  (* Count nuclei including those which touch the image border *)
  labels ← call (voronoi_otsu_labeling image (7 # 2));
  label_intensity_map ← call (mean_intensity_map image labels);
  high_intensity_labels ←
    call (exclude_labels_with_map_values_within_range
            label_intensity_map labels 0 20);
  nuclei_count ← lift (array_max high_intensity_labels);
  (* Count nuclei excluding those which touch the image border *)
  labels_without_borders ←
    call (exclude_labels_on_edges high_intensity_labels);
  nuclei_count_excluding_borders ← lift (array_max labels_without_borders);
  let result :=
    [[ (inject_Z (Z.of_nat (nuclei_count + nuclei_count_excluding_borders))
        / 2)%Q ]] in
  print (Shape (Array.shape result));;
  mret result.

(** ** Label images *)

Module Labels.

(** The objects of a label image: its distinct positive labels. *)
Definition objects (a : label_image) : gset nat :=
  list_to_set (Array.ravel a) ∖ {[0]}.

Definition num_objects (a : label_image) : nat := size (objects a).

(** Labels are numbered without gaps: exactly [1 .. a.max()] occur. *)
Definition sequential (a : label_image) : Prop :=
  objects a = set_seq 1 (max_list (Array.ravel a)).

(** The pixels of row 0, of the last row, of column 0 and of the last
    column. *)
Definition edge_pixels (a : label_image) : list nat :=
  hd [] a ++ default [] (last a) ++
  (a ≫= λ row, option_list (head row) ++ option_list (last row)).

(** The objects with a pixel on one of the four edges, and the others. *)
Definition edge_objects (a : label_image) : gset nat :=
  objects a ∩ list_to_set (edge_pixels a).

Definition interior_objects (a : label_image) : gset nat :=
  objects a ∖ list_to_set (edge_pixels a).

(** [b] is [a] with some objects removed and the others renumbered:
    background stays background, and a gap-free numbering stays
    gap-free. *)
Definition renumbered (a b : label_image) : Prop :=
  ∃ f : nat → nat,
    b = Array.map f a ∧ f 0 = 0 ∧ (sequential a → sequential b).

(** [b] is [a] without the objects that touch an edge: those become
    background, the others keep their pixels under a new, distinct,
    positive number. *)
Definition edges_excluded (a b : label_image) : Prop :=
  ∃ f : nat → nat,
    b = Array.map f a ∧ f 0 = 0 ∧
    (∀ l, l ∈ edge_objects a → f l = 0) ∧
    (∀ l, l ∈ interior_objects a → 0 < f l) ∧
    (∀ l l', l ∈ interior_objects a → l' ∈ interior_objects a →
             f l = f l' → l = l') ∧
    (sequential a → sequential b).

End Labels.

(** What the counter relies on from the library's documentation: label
    images have the shape of the input, their labels are numbered without
    gaps, and the two exclusion operations remove objects and renumber
    the remaining ones. *)
Class CleLaws (D : Type) `{!Cle D} : Prop := {
  voronoi_otsu_labeling_shape image σ d L d' :
    voronoi_otsu_labeling image σ d = (Ok L, d') →
    Array.same_shape image L;
  voronoi_otsu_labeling_sequential image σ d L d' :
    voronoi_otsu_labeling image σ d = (Ok L, d') →
    Labels.sequential L;
  exclude_labels_with_map_values_within_range_renumbered
      values L lo hi d H d' :
    exclude_labels_with_map_values_within_range values L lo hi d
      = (Ok H, d') →
    Labels.renumbered L H;
  exclude_labels_on_edges_excluded H d W d' :
    exclude_labels_on_edges H d = (Ok W, d') →
    Labels.edges_excluded H W
}.


(** The four library calls of [count_nuclei] on [image], started on
    device state [d], all return: [L] is the segmentation, [V] the map of
    mean intensities, [H] the high-intensity objects and [W] those of
    them that touch no edge. *)
Definition segmented {D} `{!Cle D} (image : tile) (d : D)
    (L : label_image) (V : tile) (H W : label_image) : Prop :=
  ∃ d1 d2 d3 d4,
    voronoi_otsu_labeling image (7 # 2) d = (Ok L, d1) ∧
    mean_intensity_map image L d1 = (Ok V, d2) ∧
    exclude_labels_with_map_values_within_range V L 0 20 d2 = (Ok H, d3) ∧
    exclude_labels_on_edges H d3 = (Ok W, d4).

(** ** The benchmark kernel *)

Module Numpy.

(** An index into an axis of length [n]; negative indices count from
    the end. *)
Definition index (i : Z) (n : nat) : result nat :=
  if decide (0 ≤ i < Z.of_nat n)%Z then Ok (Z.to_nat i)
  else if decide (- Z.of_nat n ≤ i < 0)%Z then Ok (Z.to_nat (i + Z.of_nat n))
  else Raise IndexError.

(** [a[x, y]] *)
Definition getitem {A} (a : array2 A) (x y : Z) : result A :=
  match index x (length a), index y (Array.ncols a) with
  | Ok r, Ok c =>
      match Array.get a r c with
      | Some v => Ok v
      | None => Raise IndexError
      end
  | _, _ => Raise IndexError
  end.

(** [a[x, y] = v], as the array it leaves *)
Definition setitem {A} (a : array2 A) (x y : Z) (v : A) : result (array2 A) :=
  match index x (length a), index y (Array.ncols a) with
  | Ok r, Ok c => Ok (alter (<[c := v]>) r a)
  | _, _ => Raise IndexError
  end.

(** [range(n)] *)
Definition range (n : nat) : list nat := seq 0 n.

(** [np.zeros((rows, cols))] *)
Definition zeros (rows cols : nat) : array2 Q :=
  replicate rows (replicate cols 0%Q).

End Numpy.

(** The array is the notebook's [np.zeros((10, 10))], of floating-point
    numbers; the integer [sum] is stored as the number it denotes. *)
Definition slow_thing (image : array2 Q) (x y : Z) : result (array2 Q) :=
  (* Silly algorithm for wasting compute time *)
  let sum :=
    foldl (λ sum i,
             let sum := foldl (λ sum j, sum + x)%Z sum (Numpy.range 100) in
             (sum + y)%Z)
          0%Z (Numpy.range 1000) in
  Numpy.setitem image x y (inject_Z sum).

(** ** Processing a whole image *)

(** A loop [for x in xs: body] over a mutable object in state [s]: it
    leaves an outcome and the object, and the first exception ends it. *)
Fixpoint for_ {A S} (xs : list A) (body : A → S → result unit * S) (s : S)
    : result unit * S :=
  match xs with
  | [] => (Ok tt, s)
  | x :: xs =>
      match body x s with
      | (Ok _, s') => for_ xs body s'
      | (Raise e, s') => (Raise e, s')
      end
  end.

(** The statement [slow_thing(image, x, y)] with loop variables [x] and
    [y]: the array is changed in place, and left as it is when the
    assignment raises. *)
Definition slow_thing_call (x y : nat) (image : array2 Q)
    : result unit * array2 Q :=
  match slow_thing image (Z.of_nat x) (Z.of_nat y) with
  | Ok image' => (Ok tt, image')
  | Raise e => (Raise e, image)
  end.

(** What [slow_thing] stores at row [x], column [y]. *)
Abbreviation stored x y :=
  (inject_Z (100000 * Z.of_nat x + 1000 * Z.of_nat y)) (only parsing).

(** Both loops run over [image.shape[1]]. *)
Definition process_image (image : array2 Q) : result unit * array2 Q :=
  for_ (Numpy.range (Array.shape image).2) (λ x image,
    for_ (Numpy.range (Array.shape image).2) (λ y image,
      slow_thing_call x y image) image) image.

(** The calls [delayed(slow_thing)(image, x, y)] that the generator of
    [process_image_parallel] hands to [Parallel], in the order it yields
    them: [y] over [image.shape[0]] outside, [x] over [image.shape[1]]
    inside.  How [Parallel] distributes them over workers is outside this
    development. *)
Definition delayed_calls (image : array2 Q) : list (nat * nat) :=
  y ← Numpy.range (Array.shape image).1;
  x ← Numpy.range (Array.shape image).2;
  [(x, y)].

(** Calls applied to one array, one after the other in the given order. *)
Definition run_calls (calls : list (nat * nat)) (image : array2 Q)
    : result unit * array2 Q :=
  for_ calls (λ '(x, y), slow_thing_call x y) image.

(** ** A reference library *)

(** A small executable instance of [Cle], used to run the counter on
    concrete tiles.  Signal is what lies above zero (there is no
    smoothing, [spot_sigma] is ignored), objects are the 4-connected
    components of the signal, the device counts the kernels it has run
    and refuses arrays of zero size, for which no buffer can be created. *)
Module CleRef.

Definition at_ (a : label_image) (r c : nat) : nat :=
  default 0 (Array.get a r c).

(** The new number of label [l] when the labels [keep] stay: its rank
    among them; every other label becomes background. *)
Definition renumber (keep : gset nat) (l : nat) : nat :=
  if decide (l ∈ keep) then size (filter (λ k, k ≤ l) keep) else 0.

Definition signal (v : Q) : bool := negb (Qle_bool v 0).

(** One number per signal pixel. *)
Definition seeds (image : tile) : label_image :=
  imap (λ r row,
          imap (λ c v, if signal v then S (r * Array.ncols image + c) else 0)
               row)
       image.

Definition min_label (x y : nat) : nat :=
  if decide (y = 0) then x else x `min` y.

(** Every signal pixel takes the smallest number among itself and its
    four neighbours. *)
Definition propagate (a : label_image) : label_image :=
  imap (λ r row,
          imap (λ c v,
                  if decide (v = 0) then 0
                  else foldl min_label v
                         [at_ a (pred r) c; at_ a (S r) c;
                          at_ a r (pred c); at_ a r (S c)])
               row)
       a.

Definition close_gaps (a : label_image) : label_image :=
  Array.map (renumber (Labels.objects a)) a.

Definition components (image : tile) : label_image :=
  close_gaps (Nat.iter (Array.size image) propagate (seeds image)).

(** The intensities under label [l]. *)
Definition intensities (image : tile) (L : label_image) (l : nat) : list Q :=
  snd <$> filter (λ p, p.1 = l) (zip (Array.ravel L) (Array.ravel image)).

Definition mean (vs : list Q) : Q :=
  (foldr Qplus 0 vs / inject_Z (Z.of_nat (length vs)))%Q.

Definition within (lo hi v : Q) : bool := Qle_bool lo v && Qle_bool v hi.

(** The labels whose value in [values] lies outside [lo .. hi]. *)
Definition outside_range (values : tile) (L : label_image) (lo hi : Q)
    : gset nat :=
  filter (λ l, ¬ Forall (λ v, within lo hi v) (intensities values L l))
         (Labels.objects L).

Definition mean_intensities (image : tile) (L : label_image) : tile :=
  Array.map (λ l, mean (intensities image L l)) L.

Definition exclude_within_range (values : tile) (lo hi : Q)
    (L : label_image) : label_image :=
  Array.map (renumber (outside_range values L lo hi)) L.

Definition exclude_on_edges (H : label_image) : label_image :=
  Array.map (renumber (Labels.interior_objects H)) H.

(** Running [f] on the device. *)
Definition kernel {A B} (f : array2 A → B) (a : array2 A) (d : nat)
    : result B * nat :=
  if decide (Array.size a = 0) then (Raise (RuntimeError 61), d)
  else (Ok (f a), S d).

#[global] Instance cle : Cle nat := {|
  voronoi_otsu_labeling image _ := kernel components image;
  mean_intensity_map image := kernel (mean_intensities image);
  exclude_labels_with_map_values_within_range values L lo hi :=
    kernel (exclude_within_range values lo hi) L;
  exclude_labels_on_edges := kernel exclude_on_edges
|}.

(** The same library on a device that accepts arrays of zero size. *)
Definition lenient : Cle nat := {|
  voronoi_otsu_labeling image _ d := (Ok (components image), S d);
  mean_intensity_map image L d := (Ok (mean_intensities image L), S d);
  exclude_labels_with_map_values_within_range values L lo hi d :=
    (Ok (exclude_within_range values lo hi L), S d);
  exclude_labels_on_edges H d := (Ok (exclude_on_edges H), S d)
|}.

(** The same library with the setting of [cle.set_wait_for_kernel_finish]
    as the state of the device: when kernels are not waited for, a result
    is read before its kernel has written it and holds zeros. *)
Definition kernel_on {A B} (zero : B) (f : array2 A → array2 B)
    (a : array2 A) (wait_for_kernel_finish : bool)
    : result (array2 B) * bool :=
  if decide (Array.size a = 0)
  then (Raise (RuntimeError 61), wait_for_kernel_finish)
  else (Ok (if wait_for_kernel_finish then f a
            else Array.map (λ _, zero) (f a)),
        wait_for_kernel_finish).

Definition asynchronous : Cle bool := {|
  voronoi_otsu_labeling image _ := kernel_on 0 components image;
  mean_intensity_map image := kernel_on 0%Q (mean_intensities image);
  exclude_labels_with_map_values_within_range values L lo hi :=
    kernel_on 0 (exclude_within_range values lo hi) L;
  exclude_labels_on_edges := kernel_on 0 exclude_on_edges
|}.

End CleRef.

(** What the library documents for its two operations on intensities.
    The map of mean intensities has the shape of the label image and
    holds, under every pixel, the mean of the image over the pixels of
    that pixel's label.  The exclusion removes every label all of whose
    values in the map lie within the range, bounds included. *)
Class CleIntensityLaws (D : Type) `{!Cle D} : Prop := {
  mean_intensity_map_mean image L d V d' :
    mean_intensity_map image L d = (Ok V, d') →
    Array.same_shape L V ∧
    ∀ r c l v,
      Array.get L r c = Some l → Array.get V r c = Some v →
      (v == CleRef.mean (CleRef.intensities image L l))%Q;
  exclude_labels_with_map_values_within_range_removed
      values L lo hi d H d' :
    exclude_labels_with_map_values_within_range values L lo hi d
      = (Ok H, d') →
    Array.same_shape L values →
    ∃ f : nat → nat,
      H = Array.map f L ∧
      ∀ l, (∀ r c, Array.get L r c = Some l →
                   ∃ v, Array.get values r c = Some v ∧
                        (lo <= v <= hi)%Q) →
           f l = 0
}.

(** ** Sample tiles *)

(** Small tiles and what the reference library makes of them. *)
Module Tiles.

Record sample : Type := Sample {
  image : tile;
  labels : label_image;
  label_intensity_map : tile;
  high_intensity_labels : label_image;
  labels_without_borders : label_image
}.

Definition segment (image : tile) : sample :=
  let L := CleRef.components image in
  let V := CleRef.mean_intensities image L in
  let H := CleRef.exclude_within_range V 0 20 L in
  Sample image L V H (CleRef.exclude_on_edges H).

(** Nothing but background. *)
Definition blank : sample := Eval vm_compute in
  segment [[0; 0; 0]; [0; 0; 0]; [0; 0; 0]]%Q.


(** Two bright nuclei away from the edges and a dim speck. *)
Definition two_nuclei : sample := Eval vm_compute in
  segment [[0;  0;  0; 0;  0; 0; 0];
           [0; 50; 50; 0;  0; 0; 0];
           [0; 50; 50; 0; 30; 0; 0];
           [0;  0;  0; 0; 30; 0; 9];
           [0;  0;  0; 0;  0; 0; 0]]%Q.

(** One bright nucleus cut by the left edge. *)
Definition border_nucleus : sample := Eval vm_compute in
  segment [[ 0;  0; 0; 0];
           [50; 50; 0; 0];
           [50; 50; 0; 0];
           [ 0;  0; 0; 0]]%Q.

(** A nucleus in the interior and one cut by the bottom edge. *)
Definition mixed : sample := Eval vm_compute in
  segment [[0;  0; 0;  0; 0];
           [0; 40; 0;  0; 0];
           [0;  0; 0; 60; 0];
           [0;  0; 0; 60; 0]]%Q.


(** A strip of two rows with one bright nucleus. *)
Definition strip : sample := Eval vm_compute in
  segment [[0; 50; 50; 0];
           [0; 50; 50; 0]]%Q.

(** A fresh world: nothing printed, no kernel run. *)
Definition fresh : world nat := World [] 0.

End Tiles.

(** * Properties *)

(** ** Running the counter *)

Section run.
Context {D : Type} `{!Cle D}.

Lemma count_nuclei_returns image (w : world D) L V H W a b :
  segmented image (device w) L V H W →
  array_max H = Ok a →
  array_max W = Ok b →
  value (count_nuclei image) w = Ok [[average a b]].
Proof.
  intros (d1 & d2 & d3 & d4 & HL & HV & HH & HW) Ha Hb.
  unfold value, count_nuclei, mbind, M_bind, mret, M_ret, call, lift, print.
  simpl. rewrite HL. simpl. rewrite HV. simpl. rewrite HH. simpl.
  rewrite Ha. rewrite HW. simpl. rewrite Hb. done.
Qed.

Lemma count_nuclei_inv image (w : world D) r :
  value (count_nuclei image) w = Ok r →
  ∃ L V H W a b,
    segmented image (device w) L V H W ∧
    array_max H = Ok a ∧ array_max W = Ok b ∧ r = [[average a b]].
Proof.
  unfold value, count_nuclei, mbind, M_bind, mret, M_ret, call, lift, print,
    segmented.
  simpl.
  destruct (voronoi_otsu_labeling image (7 # 2) (device w))
    as [[L|?] d1] eqn:HL; simpl; [|done].
  destruct (mean_intensity_map image L d1) as [[V|?] d2] eqn:HV; simpl; [|done].
  destruct (exclude_labels_with_map_values_within_range V L 0 20 d2)
    as [[H|?] d3] eqn:HH; simpl; [|done].
  destruct (array_max H) as [a|?] eqn:Ha; [|done].
  destruct (exclude_labels_on_edges H d3) as [[W|?] d4] eqn:HW; simpl; [|done].
  destruct (array_max W) as [b|?] eqn:Hb; simpl; [|done].
  intros [= <-]. exists L, V, H, W, a, b. naive_solver.
Qed.

(** An exception of the segmentation is the counter's own. *)
Lemma count_nuclei_raises image (w : world D) e d' :
  voronoi_otsu_labeling image (7 # 2) (device w) = (Raise e, d') →
  value (count_nuclei image) w = Raise e.
Proof.
  intros HL.
  unfold value, count_nuclei, mbind, M_bind, call, print. simpl.
  by rewrite HL.
Qed.

End run.

(** ** Arrays and labels *)

Section arrays.
Context {A B : Type}.
Implicit Types (a : array2 A) (b : array2 B).

Lemma ravel_map (f : A → B) a :
  Array.ravel (Array.map f a) = f <$> Array.ravel a.
Proof.
  unfold Array.ravel, Array.map.
  induction a as [|row a IH]; csimpl; [done|]. by rewrite fmap_app, IH.
Qed.

Lemma same_shape_map (f : A → B) a : Array.same_shape a (Array.map f a).
Proof.
  unfold Array.same_shape, Array.map. rewrite <-list_fmap_compose.
  apply list_fmap_ext. intros _ row _. simpl. by rewrite length_fmap.
Qed.

Lemma same_shape_size a b :
  Array.same_shape a b → Array.size a = Array.size b.
Proof.
  unfold Array.same_shape, Array.size, Array.ravel. intros Hs.
  by rewrite !length_join, Hs.
Qed.

Lemma size_pos_ravel a : 0 < Array.size a ↔ Array.ravel a ≠ [].
Proof. unfold Array.size. destruct (Array.ravel a); simpl; naive_solver lia. Qed.

End arrays.

Lemma array_max_Ok (a : label_image) :
  0 < Array.size a → array_max a = Ok (max_list (Array.ravel a)).
Proof.
  rewrite size_pos_ravel. unfold array_max. by destruct (Array.ravel a).
Qed.


Section labels.
Import Labels.
Implicit Types a b : label_image.

Lemma elem_of_objects a l : l ∈ objects a ↔ l ∈ Array.ravel a ∧ l ≠ 0.
Proof. unfold objects. set_solver. Qed.

(** When the objects are numbered [1 .. n], the largest pixel is [n]. *)
Lemma objects_seq_max a n :
  objects a = set_seq 1 n → max_list (Array.ravel a) = n.
Proof.
  intros Hseq.
  assert (Hle : ∀ l, l ∈ Array.ravel a → l ≤ n).
  { intros l Hl. destruct (decide (l = 0)) as [->|?]; [lia|].
    assert (l ∈ objects a) as Hin by (apply elem_of_objects; auto).
    rewrite Hseq, elem_of_set_seq in Hin. lia. }
  apply Nat.le_antisymm.
  - destruct (Array.ravel a) as [|x px] eqn:E; [simpl; lia|].
    apply Hle. rewrite <-E. apply max_list_elem_of. by rewrite E.
  - destruct n as [|n]; [lia|]. apply max_list_elem_of_le.
    apply (elem_of_objects a). rewrite Hseq, elem_of_set_seq. lia.
Qed.

Lemma sequential_iff a : sequential a ↔ ∃ n, objects a = set_seq 1 n.
Proof.
  split; [by eexists|]. intros [n Hn]. unfold sequential.
  by rewrite (objects_seq_max a n).
Qed.

(** With a gap-free numbering, the largest label is the number of
    objects. *)
Lemma sequential_max a :
  sequential a → max_list (Array.ravel a) = num_objects a.
Proof.
  unfold sequential, num_objects. intros ->. by rewrite size_set_seq.
Qed.

Lemma array_max_sequential a :
  sequential a → 0 < Array.size a → array_max a = Ok (num_objects a).
Proof. intros Hs Hp. by rewrite array_max_Ok, sequential_max. Qed.

Lemma size_set_map_inj (f : nat → nat) (X : gset nat) :
  (∀ x y, x ∈ X → y ∈ X → f x = f y → x = y) →
  size (set_map f X : gset nat) = size X.
Proof.
  intros Hinj. unfold set_map.
  rewrite size_list_to_set, length_fmap; [done|].
  apply NoDup_fmap_2_strong; [|apply NoDup_elements].
  intros x y ?%elem_of_elements ?%elem_of_elements. by apply Hinj.
Qed.

Lemma objects_partition a l :
  l ∈ objects a ↔ l ∈ edge_objects a ∨ l ∈ interior_objects a.
Proof.
  unfold edge_objects, interior_objects.
  rewrite elem_of_intersection, elem_of_difference, elem_of_list_to_set.
  destruct (decide (l ∈ edge_pixels a)); tauto.
Qed.

(** Excluding the objects on the edges leaves the interior ones. *)
Lemma edges_excluded_objects a b f :
  b = Array.map f a → f 0 = 0 →
  (∀ l, l ∈ edge_objects a → f l = 0) →
  (∀ l, l ∈ interior_objects a → 0 < f l) →
  objects b = set_map f (interior_objects a).
Proof.
  intros -> H0 He Hi. apply set_eq. intros l.
  rewrite elem_of_objects, ravel_map, list_elem_of_fmap, elem_of_map.
  split.
  - intros [(k & -> & Hk) Hne]. exists k. split; [done|].
    destruct (decide (k = 0)) as [->|?]; [done|].
    assert (k ∈ objects a) as Hobj by (apply elem_of_objects; auto).
    apply objects_partition in Hobj as [?|?]; [|done].
    by rewrite He in Hne.
  - intros (k & -> & Hk). specialize (Hi k Hk).
    split; [|lia]. exists k. split; [done|].
    unfold interior_objects in Hk.
    apply elem_of_difference in Hk as [Hk _].
    by apply elem_of_objects in Hk as [? _].
Qed.

Lemma edges_excluded_num_objects a b :
  edges_excluded a b → num_objects b = size (interior_objects a).
Proof.
  intros (f & Hb & H0 & He & Hi & Hinj & _). unfold num_objects.
  rewrite (edges_excluded_objects a b f) by done.
  by apply size_set_map_inj.
Qed.

Lemma edges_excluded_shape a b : edges_excluded a b → Array.same_shape a b.
Proof. intros (f & -> & _). apply same_shape_map. Qed.

Lemma renumbered_shape a b : renumbered a b → Array.same_shape a b.
Proof. intros (f & -> & _). apply same_shape_map. Qed.

Lemma renumbered_no_objects a b :
  renumbered a b → objects a = ∅ → objects b = ∅.
Proof.
  intros (f & -> & H0 & _) Ha. apply set_eq. intros l.
  rewrite elem_of_objects, ravel_map, list_elem_of_fmap.
  split; [|intros Hl; by apply not_elem_of_empty in Hl].
  intros [(k & -> & Hk) Hne].
  destruct (decide (k = 0)) as [->|?]; [done|].
  assert (k ∈ objects a) as Hobj by (apply elem_of_objects; auto).
  rewrite Ha in Hobj. by apply not_elem_of_empty in Hobj.
Qed.

Lemma interior_subseteq a : interior_objects a ⊆ objects a.
Proof. intros l Hl. by apply elem_of_difference in Hl as [? _]. Qed.

End labels.

(** ** The reference library keeps the contract *)

Section renumber.
Import Labels CleRef.
Implicit Types (keep : gset nat) (a : label_image).

Lemma renumber_not_kept keep l : l ∉ keep → renumber keep l = 0.
Proof. intros ?. unfold renumber. by rewrite decide_False. Qed.

Lemma renumber_kept keep l :
  l ∈ keep → renumber keep l = size (filter (λ k, k ≤ l) keep).
Proof. intros ?. unfold renumber. by rewrite decide_True. Qed.

Lemma renumber_bounds keep l :
  l ∈ keep → 1 ≤ renumber keep l ≤ size keep.
Proof.
  intros Hl. rewrite renumber_kept by done. split.
  - assert (size (filter (λ k, k ≤ l) keep) ≠ 0); [|lia].
    apply size_non_empty_iff. intros Hempty.
    apply (not_elem_of_empty (C:=gset nat) l). rewrite <-Hempty.
    apply elem_of_filter. auto.
  - apply subseteq_size. intros k Hk. by apply elem_of_filter in Hk as [_ ?].
Qed.

Lemma renumber_lt keep l l' :
  l ∈ keep → l' ∈ keep → l < l' → renumber keep l < renumber keep l'.
Proof.
  intros Hl Hl' Hlt. rewrite !renumber_kept by done.
  apply subset_size. split.
  - intros k [? ?]%elem_of_filter. apply elem_of_filter. split; [lia|done].
  - intros Hsub. specialize (Hsub l').
    rewrite !elem_of_filter in Hsub. destruct Hsub as [? _]; [auto|lia].
Qed.

Lemma renumber_inj keep l l' :
  l ∈ keep → l' ∈ keep → renumber keep l = renumber keep l' → l = l'.
Proof.
  intros Hl Hl' Heq.
  destruct (Nat.lt_trichotomy l l') as [Hlt|[?|Hlt]]; [|done|].
  - pose proof (renumber_lt keep l l' Hl Hl' Hlt). lia.
  - pose proof (renumber_lt keep l' l Hl' Hl Hlt). lia.
Qed.

(** The kept labels are renumbered [1 .. size keep]. *)
Lemma renumber_image keep :
  set_map (renumber keep) keep = (set_seq 1 (size keep) : gset nat).
Proof.
  apply set_subseteq_size_eq.
  - intros n (l & -> & Hl)%elem_of_map. apply elem_of_set_seq.
    pose proof (renumber_bounds keep l Hl). lia.
  - rewrite size_set_seq, size_set_map_inj; [done|].
    intros x y. apply renumber_inj.
Qed.

Lemma objects_renumber keep a :
  keep ⊆ objects a →
  objects (Array.map (renumber keep) a) = set_seq 1 (size keep).
Proof.
  intros Hsub. rewrite <-renumber_image. apply set_eq. intros n.
  rewrite elem_of_objects, ravel_map, list_elem_of_fmap, elem_of_map.
  split.
  - intros [(l & -> & Hl) Hne]. exists l. split; [done|].
    destruct (decide (l ∈ keep)); [done|]. by rewrite renumber_not_kept in Hne.
  - intros (l & -> & Hl). pose proof (renumber_bounds keep l Hl).
    split; [|lia]. exists l. split; [done|].
    by apply Hsub, elem_of_objects in Hl as [? _].
Qed.

Lemma sequential_renumber keep a :
  keep ⊆ objects a → sequential (Array.map (renumber keep) a).
Proof. intros ?. apply sequential_iff. eexists. by apply objects_renumber. Qed.

Lemma renumber_background keep a : keep ⊆ objects a → renumber keep 0 = 0.
Proof.
  intros Hsub. apply renumber_not_kept. intros H0%Hsub.
  by apply elem_of_objects in H0 as [_ ?].
Qed.

End renumber.

Section reference.
Import Labels CleRef.

Lemma no_objects_iff (a : label_image) :
  objects a = ∅ ↔ ∀ l, l ∈ Array.ravel a → l = 0.
Proof.
  split.
  - intros Hempty l Hl. destruct (decide (l = 0)); [done|].
    assert (l ∈ objects a) as Hobj by (apply elem_of_objects; auto).
    rewrite Hempty in Hobj. by apply not_elem_of_empty in Hobj.
  - intros Hall. apply set_eq. intros l. split.
    + intros [Hl ?]%elem_of_objects. by apply Hall in Hl.
    + intros Hl. by apply not_elem_of_empty in Hl.
Qed.

Section pixelwise.
Context {A B : Type} (g : nat → nat → A → B).

Lemma same_shape_imap (a : array2 A) :
  Array.same_shape a (imap (λ r row, imap (g r) row) a).
Proof.
  unfold Array.same_shape. apply list_eq. intros i.
  rewrite !list_lookup_fmap, list_lookup_imap.
  destruct (a !! i); simpl; [|done]. by rewrite length_imap.
Qed.

Lemma elem_of_ravel_imap (a : array2 A) y :
  y ∈ Array.ravel (imap (λ r row, imap (g r) row) a) →
  ∃ r c v, y = g r c v ∧ v ∈ Array.ravel a.
Proof.
  unfold Array.ravel. intros (row' & Hy & Hrow)%list_elem_of_join.
  apply list_elem_of_lookup in Hrow as [r Hr].
  rewrite list_lookup_imap in Hr.
  destruct (a !! r) as [row|] eqn:Hrow; simplify_eq/=.
  apply list_elem_of_lookup in Hy as [c Hc].
  rewrite list_lookup_imap in Hc.
  destruct (row !! c) as [v|] eqn:Hv; simplify_eq/=.
  exists r, c, v. split; [done|]. apply list_elem_of_join.
  exists row. split; by eapply list_elem_of_lookup_2.
Qed.
End pixelwise.

Lemma same_shape_propagate n (a : label_image) :
  Array.same_shape a (Nat.iter n propagate a).
Proof.
  induction n as [|n IH]; simpl; [done|].
  unfold Array.same_shape in *. rewrite IH. apply same_shape_imap.
Qed.

Lemma same_shape_components (image : tile) :
  Array.same_shape image (components image).
Proof.
  unfold components, close_gaps, Array.same_shape.
  rewrite <-same_shape_map. rewrite <-same_shape_propagate.
  apply same_shape_imap.
Qed.

Lemma kernel_Ok {A B} (f : array2 A → B) a d b d' :
  kernel f a d = (Ok b, d') → b = f a ∧ 0 < Array.size a.
Proof. unfold kernel. case_decide; intros [= <- <-]. split; [done|lia]. Qed.

Lemma outside_range_subseteq values L lo hi :
  outside_range values L lo hi ⊆ objects L.
Proof. intros l Hl. by apply elem_of_filter in Hl as [_ ?]. Qed.

Lemma cle_laws : CleLaws nat.
Proof.
  split.
  - intros image σ d L d' [-> _]%kernel_Ok. apply same_shape_components.
  - intros image σ d L d' [-> _]%kernel_Ok.
    by apply sequential_renumber.
  - intros values L lo hi d H d' [-> _]%kernel_Ok.
    pose proof (outside_range_subseteq values L lo hi) as Hsub.
    exists (renumber (outside_range values L lo hi)).
    split_and!; [done|by eapply renumber_background|].
    intros _. by apply sequential_renumber.
  - intros H d W d' [-> _]%kernel_Ok.
    pose proof (interior_subseteq H) as Hsub.
    exists (renumber (interior_objects H)).
    split_and!; [done|by eapply renumber_background|..].
    + intros l [_ Hl]%elem_of_intersection. apply renumber_not_kept.
      intros [_ Hn]%elem_of_difference. done.
    + intros l Hl. pose proof (renumber_bounds _ l Hl). lia.
    + intros l l'. apply renumber_inj.
    + intros _. by apply sequential_renumber.
Qed.


End reference.

(** ** The counter on a segmented tile *)

Section counter.
Import Labels.
Context {D : Type} `{!Cle D} `{!CleLaws D}.

(** What the contract of the library gives for the label images of a
    run. *)
Lemma segmented_labels image (d : D) L V H W :
  segmented image d L V H W →
  Array.size H = Array.size image ∧ Array.size W = Array.size image ∧
  sequential H ∧ sequential W ∧ renumbered L H ∧ edges_excluded H W.
Proof.
  intros (d1 & d2 & d3 & d4 & HL & HV & HH & HW).
  pose proof (voronoi_otsu_labeling_shape _ _ _ _ _ HL) as HsL.
  pose proof (voronoi_otsu_labeling_sequential _ _ _ _ _ HL) as HqL.
  pose proof (exclude_labels_with_map_values_within_range_renumbered
                _ _ _ _ _ _ _ HH) as HrH.
  pose proof (exclude_labels_on_edges_excluded _ _ _ _ HW) as HeW.
  pose proof (renumbered_shape _ _ HrH) as HsH.
  pose proof (edges_excluded_shape _ _ HeW) as HsW.
  assert (sequential H) as HqH by (destruct HrH as (? & _ & _ & ?); auto).
  assert (sequential W) by (destruct HeW as (? & _ & _ & _ & _ & _ & ?); auto).
  apply same_shape_size in HsL, HsH, HsW.
  split_and!; [congruence|congruence|done..].
Qed.

Lemma segmented_counts image (d : D) L V H W :
  segmented image d L V H W → 0 < Array.size image →
  array_max H = Ok (num_objects H) ∧ array_max W = Ok (num_objects W).
Proof.
  intros (HsH & HsW & HqH & HqW & _)%segmented_labels Hpos.
  split; apply array_max_sequential; (done || lia).
Qed.

(** C1: on a tile the library segments, the counter returns
    (A + B) / 2, where A is the number of high-intensity objects,
    those on the border included, and B the number of them that touch
    none of the four edges of the tile. *)
Theorem count_nuclei_average image (w : world D) L V H W :
  segmented image (device w) L V H W →
  0 < Array.size image →
  value (count_nuclei image) w
  = Ok [[average (num_objects H) (size (interior_objects H))]].
Proof.
  intros Hseg Hpos.
  destruct (segmented_counts _ _ _ _ _ _ Hseg Hpos) as [HA HB].
  destruct (segmented_labels _ _ _ _ _ _ Hseg) as (_ & _ & _ & _ & _ & HeW).
  rewrite <-(edges_excluded_num_objects H W HeW).
  by eapply count_nuclei_returns.
Qed.

(** C2: the two quantities the counter averages, the maxima of the
    high-intensity label image and of the edge-excluded label image,
    are the numbers of distinct positive labels of these images. *)
Theorem count_nuclei_counts_distinct_labels image (w : world D) L V H W :
  segmented image (device w) L V H W →
  0 < Array.size image →
  array_max H = Ok (size (list_to_set (Array.ravel H) ∖ {[0]} : gset nat)) ∧
  array_max W = Ok (size (list_to_set (Array.ravel W) ∖ {[0]} : gset nat)) ∧
  value (count_nuclei image) w
  = Ok [[average (num_objects H) (num_objects W)]].
Proof.
  intros Hseg Hpos.
  destruct (segmented_counts _ _ _ _ _ _ Hseg Hpos) as [HA HB].
  split_and!; [done..|]. by eapply count_nuclei_returns.
Qed.


(** C5: when the high-intensity label image has exactly one object and
    that object touches the border, A is 1, B is 0 and the counter
    returns 1/2. *)
Theorem count_nuclei_one_border_object image (w : world D) L V H W :
  segmented image (device w) L V H W →
  num_objects H = 1 →
  (∀ l, l ∈ objects H → l ∈ edge_pixels H) →
  array_max H = Ok 1 ∧ array_max W = Ok 0 ∧
  value (count_nuclei image) w = Ok [[1 # 2]].
Proof.
  intros Hseg Hone Hedge.
  destruct (segmented_labels _ _ _ _ _ _ Hseg)
    as (HsH & _ & _ & _ & _ & HeW).
  assert (0 < Array.size image) as Hpos.
  { rewrite <-HsH. apply size_pos_ravel. intros Hnil.
    unfold num_objects, objects in Hone. rewrite Hnil in Hone.
    by vm_compute in Hone. }
  destruct (segmented_counts _ _ _ _ _ _ Hseg Hpos) as [HA HB].
  assert (num_objects W = 0) as HnW.
  { rewrite (edges_excluded_num_objects H W HeW).
    apply size_empty_iff. intros l. split; [|by intros ?%not_elem_of_empty].
    intros [Hl Hn]%elem_of_difference. apply Hedge in Hl.
    by rewrite elem_of_list_to_set in Hn. }
  rewrite Hone in HA. rewrite HnW in HB.
  split_and!; [done..|].
  by rewrite (count_nuclei_returns _ _ _ _ _ _ _ _ Hseg HA HB).
Qed.

(** C8: on a tile the library segments, the counter returns one number
    (an array of shape (1, 1)), and that number is not negative. *)
Theorem count_nuclei_nonnegative image (w : world D) L V H W :
  segmented image (device w) L V H W →
  0 < Array.size image →
  ∃ q, value (count_nuclei image) w = Ok [[q]] ∧ (0 <= q)%Q.
Proof.
  intros Hseg Hpos.
  destruct (segmented_counts _ _ _ _ _ _ Hseg Hpos) as [HA HB].
  eexists. split; [by eapply count_nuclei_returns|].
  unfold average, Qle. simpl. lia.
Qed.

End counter.

Section any_library.
Context {D : Type} `{!Cle D}.

(** C9: whenever the counter returns, its result is half the sum of
    two natural numbers, the two maxima: a multiple of 1/2. *)
Theorem count_nuclei_half_integer image (w : world D) r :
  value (count_nuclei image) w = Ok r →
  ∃ (a b : nat) (q : Q),
    r = [[q]] ∧ (q == inject_Z (Z.of_nat (a + b)) * (1 # 2))%Q.
Proof.
  intros (L & V & H & W & a & b & _ & _ & _ & ->)%count_nuclei_inv.
  by exists a, b, (average a b).
Qed.




End any_library.

(** ** The benchmark kernel *)

Section loops.

(** The inner loop adds [x] once per round, the outer loop adds that
    and [y] once per round. *)
Lemma inner_loop (x s : Z) (js : list nat) :
  foldl (λ sum j, sum + x)%Z s js = (s + Z.of_nat (length js) * x)%Z.
Proof.
  revert s. induction js as [|j js IH]; intros s; simpl; [lia|].
  rewrite IH. lia.
Qed.

Lemma outer_loop (x y s : Z) (n : nat) (ns : list nat) :
  foldl (λ sum i,
           let sum := foldl (λ sum j, sum + x)%Z sum (Numpy.range n) in
           (sum + y)%Z) s ns
  = (s + Z.of_nat (length ns) * (Z.of_nat n * x + y))%Z.
Proof.
  revert s. induction ns as [|i ns IH]; intros s; simpl; [lia|].
  rewrite IH, inner_loop. unfold Numpy.range. rewrite length_seq. lia.
Qed.

Lemma slow_thing_sum image x y :
  slow_thing image x y
  = Numpy.setitem image x y (inject_Z (100000 * x + 1000 * y)).
Proof.
  unfold slow_thing. rewrite outer_loop. unfold Numpy.range.
  rewrite length_seq. do 2 f_equal. lia.
Qed.

Lemma index_Ok i n r : Numpy.index i n = Ok r → r < n.
Proof. unfold Numpy.index. repeat case_decide; intros [= <-]; lia. Qed.

Context {A : Type}.
Implicit Types a : array2 A.

Lemma ncols_alter a (f : list A → list A) r :
  (∀ row, length (f row) = length row) →
  Array.ncols (alter f r a) = Array.ncols a.
Proof.
  intros Hf. unfold Array.ncols.
  destruct a as [|row a]; [done|]. destruct r; simpl; [apply Hf|done].
Qed.

Lemma get_setitem_eq a r c v :
  Array.rectangular a → r < length a → c < Array.ncols a →
  Array.get (alter (<[c:=v]>) r a) r c = Some v.
Proof.
  intros Hrect Hr Hc. unfold Array.get.
  rewrite list_lookup_alter_eq.
  destruct (lookup_lt_is_Some_2 a r Hr) as [row Hrow]. rewrite Hrow. simpl.
  apply list_lookup_insert_eq.
  unfold Array.rectangular in Hrect. rewrite Forall_lookup in Hrect.
  by rewrite (Hrect r row Hrow).
Qed.

Lemma get_setitem_ne a r c r' c' v :
  (r', c') ≠ (r, c) →
  Array.get (alter (<[c:=v]>) r a) r' c' = Array.get a r' c'.
Proof.
  intros Hne. unfold Array.get.
  destruct (decide (r = r')) as [->|?].
  - rewrite list_lookup_alter_eq. destruct (a !! r') as [row|]; simpl; [|done].
    apply list_lookup_insert_ne. congruence.
  - by rewrite list_lookup_alter_ne.
Qed.

End loops.

(** C10: for a rectangular array and indices within its bounds (negative
    ones counting from the end), [slow_thing] stores 100000 x + 1000 y in
    the element [x, y] and changes neither another element nor the
    shape. *)
Theorem slow_thing_sets_pixel (image : array2 Q) (x y : Z) (r c : nat) :
  Array.rectangular image →
  Numpy.index x (length image) = Ok r →
  Numpy.index y (Array.ncols image) = Ok c →
  ∃ image',
    slow_thing image x y = Ok image' ∧
    Numpy.getitem image' x y = Ok (inject_Z (100000 * x + 1000 * y)) ∧
    (∀ r' c', (r', c') ≠ (r, c) →
              Array.get image' r' c' = Array.get image r' c') ∧
    Array.shape image' = Array.shape image.
Proof.
  intros Hrect Hx Hy. rewrite slow_thing_sum.
  unfold Numpy.setitem. rewrite Hx, Hy. eexists. split; [done|].
  assert (∀ v : Q, Array.ncols (alter (<[c:=v]>) r image) = Array.ncols image)
    as Hcols.
  { intros v. apply ncols_alter. intros row. apply length_insert. }
  split_and!.
  - unfold Numpy.getitem. rewrite length_alter, Hcols, Hx, Hy.
    apply index_Ok in Hx, Hy. by rewrite get_setitem_eq.
  - intros r' c' Hne. by apply get_setitem_ne.
  - unfold Array.shape. by rewrite length_alter, Hcols.
Qed.

(** * Concrete runs *)

Section runs.
Import Labels Tiles.

(** The reference library segments a sample tile into its label
    images. *)
Ltac segmented_sample :=
  exists 1, 2, 3, 4; split_and!; reflexivity.

Lemma count_nuclei_average_witness :
  value (count_nuclei (image mixed)) fresh = Ok [[3 # 2]].
Proof.
  apply (count_nuclei_average (CleLaws0:=cle_laws) (image mixed) fresh
           (labels mixed) (label_intensity_map mixed)
           (high_intensity_labels mixed) (labels_without_borders mixed)).
  - segmented_sample.
  - vm_compute. lia.
Defined.

Lemma count_nuclei_counts_distinct_labels_witness :
  array_max (high_intensity_labels two_nuclei) = Ok 2 ∧
  array_max (labels_without_borders two_nuclei) = Ok 2 ∧
  value (count_nuclei (image two_nuclei)) fresh = Ok [[4 # 2]].
Proof.
  apply (count_nuclei_counts_distinct_labels (CleLaws0:=cle_laws)
           (image two_nuclei) fresh
           (labels two_nuclei) (label_intensity_map two_nuclei)).
  - segmented_sample.
  - vm_compute. lia.
Defined.

(** The largest label is a count only because the library renumbers:
    here one object, numbered 2. *)
Example array_max_of_gap :
  array_max [[0; 2]] = Ok 2 ∧ num_objects [[0; 2]] = 1.
Proof. split; reflexivity. Qed.


(** What the 0 x 0 tile leaves behind: the first line of output and the
    exception, as in the output recorded with the notebook. *)
Example count_nuclei_empty_tile_run :
  count_nuclei ([] : tile) fresh
  = (Raise (RuntimeError 61), World [ProcessingImageOfSize (0, 0)] 0).
Proof. reflexivity. Qed.

(** Were the device to accept the 0 x 0 tile, the maximum of the empty
    label image would raise after three kernels. *)
Example count_nuclei_empty_tile_lenient :
  count_nuclei (Cle0:=CleRef.lenient) ([] : tile) fresh
  = (Raise ValueError, World [ProcessingImageOfSize (0, 0)] 3).
Proof. reflexivity. Qed.


Lemma count_nuclei_one_border_object_witness :
  array_max (high_intensity_labels border_nucleus) = Ok 1 ∧
  array_max (labels_without_borders border_nucleus) = Ok 0 ∧
  value (count_nuclei (image border_nucleus)) fresh = Ok [[1 # 2]].
Proof.
  apply (count_nuclei_one_border_object (CleLaws0:=cle_laws)
           (image border_nucleus) fresh
           (labels border_nucleus) (label_intensity_map border_nucleus)).
  - segmented_sample.
  - reflexivity.
  - intros l [Hl Hne]%elem_of_objects.
    apply list_elem_of_In in Hl. apply list_elem_of_In.
    vm_compute in Hl.
    repeat destruct Hl as [<-|Hl]; try done; vm_compute; tauto.
Defined.


Lemma count_nuclei_nonnegative_witness :
  ∃ q, value (count_nuclei (image mixed)) fresh = Ok [[q]] ∧ (0 <= q)%Q.
Proof.
  apply (count_nuclei_nonnegative (CleLaws0:=cle_laws) (image mixed) fresh
           (labels mixed) (label_intensity_map mixed)
           (high_intensity_labels mixed) (labels_without_borders mixed)).
  - segmented_sample.
  - vm_compute. lia.
Defined.

Lemma count_nuclei_half_integer_witness :
  ∃ (a b : nat) (q : Q),
    [[3 # 2]] = [[q]] ∧ (q == inject_Z (Z.of_nat (a + b)) * (1 # 2))%Q.
Proof.
  apply (count_nuclei_half_integer (image mixed) fresh [[3 # 2]]).
  reflexivity.
Defined.

(** The call the notebook times: [slow_thing(image, 4, 5)] on
    [np.zeros((10, 10))]. *)
Lemma slow_thing_sets_pixel_witness :
  ∃ image',
    slow_thing (Numpy.zeros 10 10) 4 5 = Ok image' ∧
    Numpy.getitem image' 4 5 = Ok (inject_Z 405000) ∧
    (∀ r' c', (r', c') ≠ (4, 5) →
              Array.get image' r' c' = Array.get (Numpy.zeros 10 10) r' c') ∧
    Array.shape image' = (10, 10).
Proof.
  apply (slow_thing_sets_pixel (Numpy.zeros 10 10) 4 5 4 5).
  - vm_compute. repeat constructor.
  - reflexivity.
  - reflexivity.
Defined.

(** A negative index counts from the end. *)
Example slow_thing_last_column :
  slow_thing (Numpy.zeros 2 2) 1 (-1) = Ok [[0; 0]; [0; 99000]]%Q.
Proof. unfold slow_thing. reflexivity. Qed.

Example slow_thing_out_of_bounds :
  slow_thing (Numpy.zeros 2 2) 2 0 = Raise IndexError.
Proof. reflexivity. Qed.

End runs.

(** * Processing a whole image *)

Section shapes.
Context {A B : Type}.
Implicit Types (a : array2 A) (b : array2 B).

Lemma same_shape_length a b : Array.same_shape a b → length a = length b.
Proof.
  unfold Array.same_shape. intros Hs. apply (f_equal length) in Hs.
  by rewrite !length_fmap in Hs.
Qed.

Lemma same_shape_ncols a b : Array.same_shape a b → Array.ncols a = Array.ncols b.
Proof.
  unfold Array.same_shape, Array.ncols.
  destruct a, b; simpl; intros Hs; by simplify_eq.
Qed.

Lemma same_shape_row a b r rowa rowb :
  Array.same_shape a b → a !! r = Some rowa → b !! r = Some rowb →
  length rowa = length rowb.
Proof.
  unfold Array.same_shape. intros Hs Ha Hb.
  apply (f_equal (.!! r)) in Hs. rewrite !list_lookup_fmap, Ha, Hb in Hs.
  by simplify_eq/=.
Qed.

Lemma same_shape_rectangular a b :
  Array.same_shape a b → Array.rectangular a → Array.rectangular b.
Proof.
  intros Hs Hrect. unfold Array.rectangular in *.
  rewrite Forall_lookup in Hrect. apply Forall_lookup. intros r rowb Hb.
  assert (is_Some (a !! r)) as [rowa Ha].
  { apply lookup_lt_is_Some. rewrite (same_shape_length a b Hs).
    by eapply lookup_lt_Some. }
  rewrite <-(same_shape_ncols a b Hs), <-(Hrect r rowa Ha).
  symmetry. by eapply same_shape_row.
Qed.

End shapes.

Section cells.
Context {A : Type}.
Implicit Types a b : array2 A.

Lemma same_shape_setitem a r c v :
  Array.same_shape a (alter (<[c:=v]>) r a).
Proof.
  unfold Array.same_shape. apply list_eq. intros i.
  rewrite !list_lookup_fmap.
  destruct (decide (r = i)) as [->|?].
  - rewrite list_lookup_alter_eq. destruct (a !! i); simpl; [|done].
    by rewrite length_insert.
  - by rewrite list_lookup_alter_ne.
Qed.

(** Arrays of one shape with the same elements are equal. *)
Lemma array_ext a b :
  Array.same_shape a b →
  (∀ r c, Array.get a r c = Array.get b r c) →
  a = b.
Proof.
  intros Hs Hget. apply list_eq. intros r.
  destruct (a !! r) as [rowa|] eqn:Ha, (b !! r) as [rowb|] eqn:Hb.
  - f_equal. apply list_eq. intros c. specialize (Hget r c).
    unfold Array.get in Hget. by rewrite Ha, Hb in Hget.
  - apply lookup_lt_Some in Ha. apply lookup_ge_None in Hb.
    apply same_shape_length in Hs. lia.
  - apply lookup_lt_Some in Hb. apply lookup_ge_None in Ha.
    apply same_shape_length in Hs. lia.
  - done.
Qed.

End cells.

Section whole_image.
Implicit Types (image : array2 Q) (calls : list (nat * nat)).

Lemma index_of_nat (x n : nat) :
  Numpy.index (Z.of_nat x) n = if decide (x < n) then Ok x else Raise IndexError.
Proof.
  unfold Numpy.index. repeat case_decide; try lia; by rewrite ?Nat2Z.id.
Qed.

Lemma slow_thing_call_inside x y image :
  x < length image → y < Array.ncols image →
  slow_thing_call x y image
  = (Ok tt, alter (<[y := stored x y]>) x image).
Proof.
  intros Hx Hy. unfold slow_thing_call.
  rewrite slow_thing_sum. unfold Numpy.setitem.
  by rewrite !index_of_nat, !decide_True.
Qed.

Lemma slow_thing_call_outside x y image :
  ¬ (x < length image ∧ y < Array.ncols image) →
  slow_thing_call x y image = (Raise IndexError, image).
Proof.
  intros Hout. unfold slow_thing_call.
  rewrite slow_thing_sum. unfold Numpy.setitem. rewrite !index_of_nat.
  repeat case_decide; (done || lia).
Qed.

Lemma for_app {T S} (xs ys : list T) (body : T → S → result unit * S) s :
  for_ (xs ++ ys) body s
  = match for_ xs body s with
    | (Ok _, s') => for_ ys body s'
    | (Raise e, s') => (Raise e, s')
    end.
Proof.
  revert s. induction xs as [|x xs IH]; intros s; simpl; [done|].
  destruct (body x s) as [[[]|e] s']; [apply IH|done].
Qed.

Lemma for_fmap {T U S} (f : T → U) (xs : list T)
    (body : U → S → result unit * S) s :
  for_ (f <$> xs) body s = for_ xs (λ x, body (f x)) s.
Proof.
  revert s. induction xs as [|x xs IH]; intros s; simpl; [done|].
  destruct (body (f x) s) as [[[]|e] s']; [apply IH|done].
Qed.

(** Calls within the bounds all return; afterwards exactly the cells
    they name hold their value. *)
Lemma run_calls_inside calls image :
  Array.rectangular image →
  Forall (λ p, p.1 < length image ∧ p.2 < Array.ncols image) calls →
  ∃ image',
    run_calls calls image = (Ok tt, image') ∧
    Array.same_shape image image' ∧
    ∀ r c, Array.get image' r c
           = if decide ((r, c) ∈ calls) then Some (stored r c)
             else Array.get image r c.
Proof.
  unfold run_calls. revert image.
  induction calls as [|[x y] calls IH]; intros image Hrect Hin; simpl.
  { by exists image. }
  apply Forall_cons in Hin as [[Hx Hy] Hin]. simpl in Hx, Hy.
  rewrite slow_thing_call_inside by done.
  pose proof (same_shape_setitem image x y (stored x y)) as Hs.
  destruct (IH (alter (<[y := stored x y]>) x image)) as (image' & -> & Hs' & Hget).
  { by eapply same_shape_rectangular. }
  { by rewrite <-(same_shape_length _ _ Hs), <-(same_shape_ncols _ _ Hs). }
  exists image'. split_and!; [done|unfold Array.same_shape in *; congruence|].
  intros r c. rewrite Hget.
  destruct (decide ((r, c) ∈ calls)) as [Hm|Hm];
    destruct (decide ((r, c) ∈ (x, y) :: calls)) as [Hm'|Hm'];
    rewrite elem_of_cons in Hm'; try tauto.
  destruct Hm' as [[= -> ->]|?]; [|done]. by apply get_setitem_eq.
  apply get_setitem_ne. tauto.
Qed.

(** One call outside the bounds ends the run with [IndexError]. *)
Lemma run_calls_outside calls image :
  Exists (λ p, ¬ (p.1 < length image ∧ p.2 < Array.ncols image)) calls →
  (run_calls calls image).1 = Raise IndexError.
Proof.
  unfold run_calls. revert image.
  induction calls as [|[x y] calls IH]; intros image Hex; simpl.
  { by apply Exists_nil in Hex. }
  destruct (decide (x < length image ∧ y < Array.ncols image)) as [[Hx Hy]|Hout].
  - rewrite slow_thing_call_inside by done.
    pose proof (same_shape_setitem image x y (stored x y)) as Hs.
    apply IH. rewrite <-(same_shape_length _ _ Hs), <-(same_shape_ncols _ _ Hs).
    apply Exists_cons in Hex as [Hex|Hex]; [|done]. simpl in Hex. tauto.
  - by rewrite slow_thing_call_outside.
Qed.

(** The loop over the rows [xs], each row written over its whole
    width. *)
Lemma rows_loop (xs : list nat) image :
  Array.rectangular image →
  Forall (λ x, x < length image) xs →
  ∃ image',
    for_ xs (λ x image,
      for_ (Numpy.range (Array.shape image).2) (λ y image,
        slow_thing_call x y image) image) image
    = (Ok tt, image') ∧
    Array.same_shape image image' ∧
    ∀ r c, Array.get image' r c
           = if decide (r ∈ xs ∧ c < Array.ncols image)
             then Some (stored r c) else Array.get image r c.
Proof.
  revert image. induction xs as [|x xs IH]; intros image Hrect Hin; cbn [for_].
  { exists image. split_and!; [done..|]. intros r c.
    rewrite decide_False; [done|]. intros [Hnil _].
    by apply elem_of_nil in Hnil. }
  apply Forall_cons in Hin as [Hx Hin].
  destruct (run_calls_inside ((λ y, (x, y)) <$> Numpy.range (Array.ncols image))
              image Hrect) as (image1 & Hrun & Hs1 & Hget1).
  { apply Forall_fmap, Forall_forall. intros y Hy. simpl.
    apply elem_of_seq in Hy. split; [done|lia]. }
  unfold run_calls in Hrun. rewrite for_fmap in Hrun.
  assert (for_ (Numpy.range (Array.shape image).2)
            (λ y image, slow_thing_call x y image) image = (Ok tt, image1))
    as -> by exact Hrun.
  destruct (IH image1) as (image' & -> & Hs' & Hget).
  { by eapply same_shape_rectangular. }
  { by rewrite <-(same_shape_length _ _ Hs1). }
  exists image'. split_and!; [done|unfold Array.same_shape in *; congruence|].
  intros r c. rewrite Hget, Hget1, <-(same_shape_ncols _ _ Hs1).
  assert ((r, c) ∈ (λ y, (x, y)) <$> Numpy.range (Array.ncols image)
          ↔ r = x ∧ c < Array.ncols image) as Hrow.
  { rewrite list_elem_of_fmap. unfold Numpy.range.
    setoid_rewrite elem_of_seq. split.
    - intros (y & [= -> ->] & ?). split; [done|lia].
    - intros [-> ?]. exists c. split; [done|lia]. }
  destruct (decide (r ∈ xs ∧ c < Array.ncols image)) as [H1|H1];
    destruct (decide ((r, c) ∈ (λ y, (x, y)) <$> Numpy.range (Array.ncols image)))
      as [H2|H2];
    destruct (decide (r ∈ x :: xs ∧ c < Array.ncols image)) as [H3|H3];
    try done; exfalso; rewrite Hrow in H2; rewrite elem_of_cons in H3; tauto.
Qed.

Lemma process_image_spec image :
  Array.rectangular image →
  ∃ image',
    process_image image
    = (if decide (length image < Array.ncols image)
       then Raise IndexError else Ok tt, image') ∧
    Array.same_shape image image' ∧
    ∀ r c, Array.get image' r c
           = if decide (r < length image ∧ r < Array.ncols image
                        ∧ c < Array.ncols image)
             then Some (stored r c) else Array.get image r c.
Proof.
  intros Hrect. unfold process_image.
  change (Numpy.range (Array.shape image).2) with (seq 0 (Array.ncols image)).
  destruct (decide (length image < Array.ncols image)) as [Hwide|Htall].
  - assert (seq 0 (Array.ncols image)
            = seq 0 (length image) ++ length image ::
              seq (S (length image)) (Array.ncols image - S (length image)))
      as ->.
    { replace (Array.ncols image)
        with (length image + S (Array.ncols image - S (length image))) at 1
        by lia.
      by rewrite seq_app. }
    rewrite for_app.
    destruct (rows_loop (seq 0 (length image)) image Hrect)
      as (image' & -> & Hs & Hget).
    { apply Forall_forall. intros x Hx%elem_of_seq. lia. }
    exists image'. split_and!; [|done|].
    + cbn [for_].
      change (Array.shape image').2 with (Array.ncols image').
      rewrite <-(same_shape_ncols _ _ Hs).
      destruct (Array.ncols image) as [|n] eqn:Hn; [lia|].
      cbn [Numpy.range seq for_].
      rewrite slow_thing_call_outside; [done|].
      rewrite <-(same_shape_length _ _ Hs). lia.
    + intros r c. rewrite Hget.
      repeat case_decide; try done; exfalso;
        rewrite elem_of_seq in *; lia.
  - destruct (rows_loop (seq 0 (Array.ncols image)) image Hrect)
      as (image' & -> & Hs & Hget).
    { apply Forall_forall. intros x Hx%elem_of_seq. lia. }
    exists image'. split_and!; [done..|].
    intros r c. rewrite Hget.
    repeat case_decide; try done; exfalso;
      rewrite elem_of_seq in *; lia.
Qed.

(** X1: on a rectangular array with at least as many rows as columns,
    [process_image] returns and keeps the shape.  It writes
    100000 r + 1000 c into the elements of the first [shape[1]] rows, so a
    square array is filled completely, and it leaves every further row as
    it was. *)
Theorem process_image_tall image :
  Array.rectangular image →
  Array.ncols image ≤ length image →
  ∃ image',
    process_image image = (Ok tt, image') ∧
    Array.shape image' = Array.shape image ∧
    ∀ r c, Array.get image' r c
           = if decide (r < Array.ncols image ∧ c < Array.ncols image)
             then Some (stored r c) else Array.get image r c.
Proof.
  intros Hrect Htall.
  destruct (process_image_spec image Hrect) as (image' & Hrun & Hs & Hget).
  rewrite decide_False in Hrun by lia.
  exists image'. split_and!; [done| |].
  - unfold Array.shape.
    by rewrite (same_shape_length _ _ Hs), (same_shape_ncols _ _ Hs).
  - intros r c. rewrite Hget.
    repeat case_decide; try done; exfalso; lia.
Qed.

(** X2: on a rectangular array with fewer rows than columns,
    [process_image] raises [IndexError], and it does so only after it has
    written every element of the array. *)
Theorem process_image_wide image :
  Array.rectangular image →
  length image < Array.ncols image →
  ∃ image',
    process_image image = (Raise IndexError, image') ∧
    ∀ r c, Array.get image' r c
           = if decide (r < length image ∧ c < Array.ncols image)
             then Some (stored r c) else None.
Proof.
  intros Hrect Hwide.
  destruct (process_image_spec image Hrect) as (image' & Hrun & Hs & Hget).
  rewrite decide_True in Hrun by lia.
  exists image'. split; [done|].
  intros r c. rewrite Hget.
  repeat case_decide; try done; try (exfalso; lia).
  unfold Array.get.
  destruct (image !! r) as [row|] eqn:Hrow; simpl; [|done].
  apply lookup_ge_None.
  unfold Array.rectangular in Hrect. rewrite Forall_lookup in Hrect.
  rewrite (Hrect r row Hrow). apply lookup_lt_Some in Hrow. lia.
Qed.

(** X3: running [process_image] again on the array it left gives the
    same outcome and leaves the same array. *)
Theorem process_image_twice image :
  Array.rectangular image →
  process_image (process_image image).2 = process_image image.
Proof.
  intros Hrect.
  destruct (process_image_spec image Hrect) as (image1 & Hrun & Hs & Hget).
  rewrite Hrun. simpl.
  destruct (process_image_spec image1) as (image2 & Hrun2 & Hs2 & Hget2).
  { by eapply same_shape_rectangular. }
  rewrite Hrun2.
  rewrite <-(same_shape_length _ _ Hs), <-(same_shape_ncols _ _ Hs) in *.
  f_equal. symmetry. apply array_ext; [done|].
  intros r c. rewrite Hget2, Hget. by repeat case_decide.
Qed.

(** X4: on a square array the calls handed to [Parallel], applied to the
    array one after the other in any order, all return and leave the
    array [process_image] leaves. *)
Theorem delayed_calls_any_order image calls :
  Array.rectangular image →
  length image = Array.ncols image →
  calls ≡ₚ delayed_calls image →
  run_calls calls image = process_image image.
Proof.
  intros Hrect Hsquare Hperm.
  assert (∀ r c, (r, c) ∈ calls
                 ↔ c < length image ∧ r < Array.ncols image) as Hmem.
  { intros r c. rewrite Hperm. unfold delayed_calls, Numpy.range. simpl.
    rewrite list_elem_of_bind. setoid_rewrite list_elem_of_bind.
    setoid_rewrite elem_of_seq. setoid_rewrite list_elem_of_singleton.
    split.
    - intros (y & (x & [= -> ->] & ?) & ?). lia.
    - intros [? ?]. exists c. split; [|lia]. exists r. split; [done|lia]. }
  destruct (run_calls_inside calls image Hrect) as (image1 & -> & Hs1 & Hget1).
  { apply Forall_forall. intros [r c] Hp%Hmem. simpl. lia. }
  destruct (process_image_spec image Hrect) as (image2 & -> & Hs2 & Hget2).
  rewrite decide_False by lia. f_equal.
  apply array_ext; [unfold Array.same_shape in *; congruence|].
  intros r c. rewrite Hget1, Hget2.
  repeat case_decide; try done; exfalso; rewrite Hmem in *; lia.
Qed.

(** X5: on a rectangular array with at least one row and one column
    that is not square, one of the calls handed to [Parallel] is out of
    bounds: applied to the array one after the other, in any order, the
    calls end in [IndexError].  With more rows than columns this differs
    from [process_image], which returns.  (Without rows no call is made
    and nothing raises.) *)
Theorem delayed_calls_not_square image calls :
  Array.rectangular image →
  0 < length image →
  0 < Array.ncols image →
  length image ≠ Array.ncols image →
  calls ≡ₚ delayed_calls image →
  (run_calls calls image).1 = Raise IndexError.
Proof.
  intros Hrect Hrows Hcols Hne Hperm. apply run_calls_outside.
  apply Exists_exists.
  assert (∀ r c, c < length image → r < Array.ncols image → (r, c) ∈ calls)
    as Hmem.
  { intros r c ??. rewrite Hperm. unfold delayed_calls, Numpy.range. simpl.
    apply list_elem_of_bind. exists c. split; [|apply elem_of_seq; lia].
    apply list_elem_of_bind. exists r. split; [left|apply elem_of_seq; lia]. }
  destruct (decide (length image < Array.ncols image)).
  - exists (length image, 0). split; [apply Hmem; lia|]. simpl. lia.
  - exists (0, Array.ncols image). split; [apply Hmem; lia|]. simpl. lia.
Qed.

End whole_image.

Lemma length_bind_const {T U} (f : T → list U) (l : list T) k :
  (∀ x, length (f x) = k) → length (l ≫= f) = length l * k.
Proof.
  intros Hf. induction l as [|x l IH]; csimpl; [done|].
  by rewrite length_app, Hf, IH.
Qed.

(** X13: the generator of [process_image_parallel] hands over
    shape[0] * shape[1] calls and none of them twice, so no two calls
    write the same element. *)
Theorem delayed_calls_distinct (image : array2 Q) :
  NoDup (delayed_calls image) ∧
  length (delayed_calls image) = length image * Array.ncols image.
Proof.
  unfold delayed_calls, Numpy.range. simpl. split.
  - apply NoDup_bind; [| |apply NoDup_seq].
    + intros y1 y2 [x y] _ _ (x1 & Hx1 & _)%list_elem_of_bind
        (x2 & Hx2 & _)%list_elem_of_bind.
      apply list_elem_of_singleton in Hx1, Hx2. congruence.
    + intros y _. apply NoDup_bind; [| |apply NoDup_seq].
      * intros x1 x2 p _ _ Hx1 Hx2.
        apply list_elem_of_singleton in Hx1, Hx2. congruence.
      * intros x _. apply NoDup_singleton.
  - rewrite (length_bind_const _ _ (Array.ncols image)), length_seq; [done|].
    intros y. by rewrite (length_bind_const _ _ 1), length_seq, Nat.mul_1_r.
Qed.

(** * Single calls of the benchmark kernel *)

Section single_calls.
Implicit Types image : array2 Q.

Lemma slow_thing_inside image x y r c :
  Numpy.index x (length image) = Ok r →
  Numpy.index y (Array.ncols image) = Ok c →
  slow_thing image x y
  = Ok (alter (<[c := inject_Z (100000 * x + 1000 * y)]>) r image).
Proof.
  intros Hx Hy. rewrite slow_thing_sum. unfold Numpy.setitem. by rewrite Hx, Hy.
Qed.

(** X6: [slow_thing] returns exactly when [x] lies in [-rows, rows) and
    [y] in [-columns, columns); otherwise it raises, and what it raises
    is [IndexError]. *)
Theorem slow_thing_bounds image x y :
  ((∃ image', slow_thing image x y = Ok image') ↔
   (- Z.of_nat (length image) ≤ x < Z.of_nat (length image) ∧
    - Z.of_nat (Array.ncols image) ≤ y < Z.of_nat (Array.ncols image))%Z) ∧
  (∀ e, slow_thing image x y = Raise e → e = IndexError).
Proof.
  rewrite slow_thing_sum. unfold Numpy.setitem, Numpy.index.
  split; [split|].
  - intros [image' Hok]. repeat case_decide; (done || lia).
  - intros [Hx Hy]. repeat case_decide; (by eexists) || lia.
  - intros e. repeat case_decide; by intros [= <-].
Qed.

(** X7: two calls of [slow_thing] that write different elements can be
    made in either order: both orders return and leave the same array. *)
Theorem slow_thing_commute image x1 y1 x2 y2 r1 c1 r2 c2 :
  Numpy.index x1 (length image) = Ok r1 →
  Numpy.index y1 (Array.ncols image) = Ok c1 →
  Numpy.index x2 (length image) = Ok r2 →
  Numpy.index y2 (Array.ncols image) = Ok c2 →
  (r1, c1) ≠ (r2, c2) →
  ∃ image1 image2 image',
    slow_thing image x1 y1 = Ok image1 ∧ slow_thing image1 x2 y2 = Ok image' ∧
    slow_thing image x2 y2 = Ok image2 ∧ slow_thing image2 x1 y1 = Ok image'.
Proof.
  intros Hx1 Hy1 Hx2 Hy2 Hne.
  assert (∀ r c (v : Q),
    length (alter (<[c:=v]>) r image) = length image ∧
    Array.ncols (alter (<[c:=v]>) r image) = Array.ncols image) as Hshape.
  { intros r c v. split; [apply length_alter|].
    apply ncols_alter. intros row. apply length_insert. }
  eexists _, _, _. split_and!.
  - by apply slow_thing_inside.
  - apply slow_thing_inside; by rewrite (proj1 (Hshape _ _ _)) || rewrite (proj2 (Hshape _ _ _)).
  - by apply slow_thing_inside.
  - rewrite (slow_thing_inside _ x1 y1 r1 c1);
      [|by rewrite (proj1 (Hshape _ _ _))|by rewrite (proj2 (Hshape _ _ _))].
    f_equal. destruct (decide (r1 = r2)) as [->|?].
    + rewrite !list_alter_alter_eq. apply list_alter_ext; [|done].
      intros row _. simpl. apply list_insert_insert_ne. congruence.
    + by apply list_alter_alter_ne.
Qed.

End single_calls.

(** * More on the counter *)

Section counter_effects.
Context {D : Type} `{!Cle D}.

(** X8: the counter prints "Processing image of size" with the shape of
    the tile first, and the shape (1, 1) of its result when it returns;
    it prints nothing else, and only the first line when it raises. *)
Theorem count_nuclei_output image (w : world D) :
  stdout (after (count_nuclei image) w)
  = stdout w ++ ProcessingImageOfSize (Array.shape image) ::
    match value (count_nuclei image) w with
    | Ok _ => [Shape (1, 1)]
    | Raise _ => []
    end.
Proof.
  unfold value, after, count_nuclei, mbind, M_bind, mret, M_ret, call, lift,
    print.
  simpl.
  destruct (voronoi_otsu_labeling image (7 # 2) (device w))
    as [[L|?] d1]; simpl; [|done].
  destruct (mean_intensity_map image L d1) as [[V|?] d2]; simpl; [|done].
  destruct (exclude_labels_with_map_values_within_range V L 0 20 d2)
    as [[H|?] d3]; simpl; [|done].
  destruct (array_max H) as [a|?]; [|done].
  destruct (exclude_labels_on_edges H d3) as [[W|?] d4]; simpl; [|done].
  destruct (array_max W) as [b|?]; simpl; [|done].
  by rewrite <-app_assoc.
Qed.

(** X9: an exception raised by any of the four library calls is raised by
    the counter unchanged: nothing is caught or retried, no later library
    call is made (the device stays as the failing call left it), and only
    the first line has been printed. *)
Theorem count_nuclei_propagates image (w : world D) e d' :
  let raised : result (array2 Q) * world D :=
    (Raise e,
     World (stdout w ++ [ProcessingImageOfSize (Array.shape image)]) d') in
  (voronoi_otsu_labeling image (7 # 2) (device w) = (Raise e, d') →
   count_nuclei image w = raised) ∧
  (∀ L d1,
     voronoi_otsu_labeling image (7 # 2) (device w) = (Ok L, d1) →
     mean_intensity_map image L d1 = (Raise e, d') →
     count_nuclei image w = raised) ∧
  (∀ L d1 V d2,
     voronoi_otsu_labeling image (7 # 2) (device w) = (Ok L, d1) →
     mean_intensity_map image L d1 = (Ok V, d2) →
     exclude_labels_with_map_values_within_range V L 0 20 d2 = (Raise e, d') →
     count_nuclei image w = raised) ∧
  (∀ L d1 V d2 H d3 a,
     voronoi_otsu_labeling image (7 # 2) (device w) = (Ok L, d1) →
     mean_intensity_map image L d1 = (Ok V, d2) →
     exclude_labels_with_map_values_within_range V L 0 20 d2 = (Ok H, d3) →
     array_max H = Ok a →
     exclude_labels_on_edges H d3 = (Raise e, d') →
     count_nuclei image w = raised).
Proof.
  unfold count_nuclei, mbind, M_bind, mret, M_ret, call, lift, print.
  simpl. split_and!.
  - by intros ->.
  - intros L d1 HL HV. rewrite HL. simpl. by rewrite HV.
  - intros L d1 V d2 HL HV HH. rewrite HL. simpl. rewrite HV. simpl.
    by rewrite HH.
  - intros L d1 V d2 H d3 a HL HV HH Ha HW. rewrite HL. simpl.
    rewrite HV. simpl. rewrite HH. simpl. rewrite Ha, HW. done.
Qed.

End counter_effects.

Section thin.
Import Labels.

(** In a label image of at most two rows, or of at most two columns,
    every pixel lies on an edge. *)
Lemma thin_edge_pixels (a : label_image) l :
  length a ≤ 2 ∨ Forall (λ row, length row ≤ 2) a →
  l ∈ Array.ravel a → l ∈ edge_pixels a.
Proof.
  unfold Array.ravel, edge_pixels. intros [Hrows|Hcols] Hl.
  - destruct a as [|r0 [|r1 [|r2 a]]]; simpl in *; [done| | |lia].
    + rewrite app_nil_r in Hl. apply elem_of_app. by left.
    + rewrite app_nil_r in Hl. rewrite !elem_of_app.
      apply elem_of_app in Hl. tauto.
  - apply list_elem_of_join in Hl as (row & Hl & Hrow).
    rewrite !elem_of_app. right. right.
    apply list_elem_of_bind. exists row. split; [|done].
    rewrite Forall_forall in Hcols. specialize (Hcols row Hrow).
    destruct row as [|p [|q [|? row]]]; simpl in *; [done| | |lia].
    + apply list_elem_of_singleton in Hl as ->. by left.
    + apply elem_of_cons in Hl as [->|Hl]; [by left|].
      apply list_elem_of_singleton in Hl as ->. right. by left.
Qed.

Lemma thin_interior_objects (a : label_image) :
  length a ≤ 2 ∨ Forall (λ row, length row ≤ 2) a →
  interior_objects a = ∅.
Proof.
  intros Hthin. apply set_eq. intros l.
  split; [|intros Hl; by apply not_elem_of_empty in Hl].
  intros [[Hl _]%elem_of_objects Hn]%elem_of_difference.
  exfalso. apply Hn. apply elem_of_list_to_set. by apply thin_edge_pixels.
Qed.

Lemma same_shape_thin {A B} (a : array2 A) (b : array2 B) :
  Array.same_shape a b →
  length a ≤ 2 ∨ Forall (λ row, length row ≤ 2) a →
  length b ≤ 2 ∨ Forall (λ row, length row ≤ 2) b.
Proof.
  intros Hs [Hrows|Hcols].
  - left. by rewrite <-(same_shape_length _ _ Hs).
  - right. rewrite Forall_lookup in Hcols. apply Forall_lookup.
    intros r rowb Hb.
    assert (is_Some (a !! r)) as [rowa Ha].
    { apply lookup_lt_is_Some. rewrite (same_shape_length a b Hs).
      by eapply lookup_lt_Some. }
    rewrite <-(same_shape_row a b r rowa rowb Hs Ha Hb). by eapply Hcols.
Qed.

Lemma objects_edge_interior (a : label_image) :
  num_objects a = size (edge_objects a) + size (interior_objects a).
Proof.
  unfold num_objects. rewrite <-size_union.
  - f_equal. apply set_eq. intros l.
    rewrite elem_of_union. apply objects_partition.
  - intros l [_ Hl]%elem_of_intersection [_ Hn]%elem_of_difference. done.
Qed.

End thin.

Section counter_bounds.
Import Labels.
Context {D : Type} `{!Cle D} `{!CleLaws D}.

Lemma segmented_result image (w : world D) L V H W :
  segmented image (device w) L V H W →
  0 < Array.size image →
  value (count_nuclei image) w
  = Ok [[average (num_objects H) (size (interior_objects H))]] ∧
  num_objects W = size (interior_objects H) ∧
  Array.same_shape image H.
Proof.
  intros Hseg Hpos.
  destruct (segmented_counts _ _ _ _ _ _ Hseg Hpos) as [HA HB].
  destruct (segmented_labels _ _ _ _ _ _ Hseg)
    as (_ & _ & _ & _ & HrH & HeW).
  pose proof (edges_excluded_num_objects H W HeW) as HnW.
  split_and!; [|done|].
  - rewrite <-HnW. by eapply count_nuclei_returns.
  - destruct Hseg as (d1 & _ & _ & _ & HL & _).
    apply voronoi_otsu_labeling_shape in HL. apply renumbered_shape in HrH.
    unfold Array.same_shape in *. congruence.
Qed.

(** X10: the corrected count lies between the two counts it averages:
    B <= count <= A, and B <= A, for A the number of high-intensity
    objects and B the number left after the exclusion on the edges. *)
Theorem count_nuclei_between image (w : world D) L V H W :
  segmented image (device w) L V H W →
  0 < Array.size image →
  ∃ q,
    value (count_nuclei image) w = Ok [[q]] ∧
    num_objects W ≤ num_objects H ∧
    (inject_Z (Z.of_nat (num_objects W)) <= q)%Q ∧
    (q <= inject_Z (Z.of_nat (num_objects H)))%Q.
Proof.
  intros Hseg Hpos.
  destruct (segmented_result _ _ _ _ _ _ Hseg Hpos) as (Hval & HnW & _).
  pose proof (subseteq_size _ _ (interior_subseteq H)) as Hle.
  fold (num_objects H) in Hle. rewrite <-HnW in Hle, Hval.
  eexists. split_and!; [done..| |];
    unfold average, Qle; simpl; lia.
Qed.

(** X11: the counter counts every object away from the edges once and
    every object on an edge half: its result is A - E / 2, for A the
    number of high-intensity objects and E the number of them that touch
    an edge. *)
Theorem count_nuclei_edge_objects_half image (w : world D) L V H W :
  segmented image (device w) L V H W →
  0 < Array.size image →
  ∃ q,
    value (count_nuclei image) w = Ok [[q]] ∧
    (q == inject_Z (Z.of_nat (num_objects H))
          - inject_Z (Z.of_nat (size (edge_objects H))) / 2)%Q.
Proof.
  intros Hseg Hpos.
  destruct (segmented_result _ _ _ _ _ _ Hseg Hpos) as (Hval & _ & _).
  eexists. split; [done|].
  rewrite (objects_edge_interior H).
  unfold average, Qeq, Qminus, Qplus, Qopp, Qdiv, Qmult, Qinv. simpl. lia.
Qed.

(** X12: on a tile of at most two rows, or of at most two columns, every
    object touches an edge, and the counter returns half the number of
    high-intensity objects. *)
Theorem count_nuclei_thin_tile image (w : world D) L V H W :
  segmented image (device w) L V H W →
  0 < Array.size image →
  length image ≤ 2 ∨ Forall (λ row, length row ≤ 2) image →
  array_max W = Ok 0 ∧
  value (count_nuclei image) w = Ok [[average (num_objects H) 0]].
Proof.
  intros Hseg Hpos Hthin.
  destruct (segmented_result _ _ _ _ _ _ Hseg Hpos) as (Hval & HnW & Hs).
  destruct (segmented_counts _ _ _ _ _ _ Hseg Hpos) as [_ HB].
  rewrite (thin_interior_objects H) in Hval, HnW
    by by eapply same_shape_thin.
  rewrite size_empty in Hval, HnW. by rewrite HnW in HB.
Qed.

End counter_bounds.

(** * Further concrete runs *)

Section more_runs.
Import Labels Tiles.

Ltac segmented_sample :=
  exists 1, 2, 3, 4; split_and!; reflexivity.

Ltac rectangular_zeros := vm_compute; repeat constructor.

(** Three rows, two columns: the third row is never written. *)
Lemma process_image_tall_witness :
  ∃ image',
    process_image (Numpy.zeros 3 2) = (Ok tt, image') ∧
    Array.shape image' = (3, 2) ∧
    ∀ r c, Array.get image' r c
           = if decide (r < 2 ∧ c < 2)
             then Some (stored r c) else Array.get (Numpy.zeros 3 2) r c.
Proof.
  apply (process_image_tall (Numpy.zeros 3 2)).
  - rectangular_zeros.
  - vm_compute. lia.
Defined.

Lemma process_image_wide_witness :
  ∃ image',
    process_image (Numpy.zeros 2 3) = (Raise IndexError, image') ∧
    ∀ r c, Array.get image' r c
           = if decide (r < 2 ∧ c < 3) then Some (stored r c) else None.
Proof.
  apply (process_image_wide (Numpy.zeros 2 3)).
  - rectangular_zeros.
  - vm_compute. lia.
Defined.

Lemma process_image_twice_witness :
  process_image (process_image (Numpy.zeros 2 3)).2
  = process_image (Numpy.zeros 2 3).
Proof.
  apply (process_image_twice (Numpy.zeros 2 3)). rectangular_zeros.
Defined.

(** The calls in the reverse of the order they were handed over. *)
Lemma delayed_calls_any_order_witness :
  run_calls (reverse (delayed_calls (Numpy.zeros 2 2))) (Numpy.zeros 2 2)
  = process_image (Numpy.zeros 2 2).
Proof.
  apply (delayed_calls_any_order (Numpy.zeros 2 2)).
  - rectangular_zeros.
  - reflexivity.
  - apply reverse_Permutation.
Defined.

Lemma delayed_calls_not_square_witness :
  (run_calls (delayed_calls (Numpy.zeros 3 2)) (Numpy.zeros 3 2)).1
  = Raise IndexError.
Proof.
  apply (delayed_calls_not_square (Numpy.zeros 3 2)).
  - rectangular_zeros.
  - vm_compute. lia.
  - vm_compute. lia.
  - vm_compute. lia.
  - reflexivity.
Defined.

(** The tall array on which the two versions differ. *)
Example process_image_versions_differ :
  (process_image (Numpy.zeros 3 2)).1 = Ok tt ∧
  (run_calls (delayed_calls (Numpy.zeros 3 2)) (Numpy.zeros 3 2)).1
  = Raise IndexError.
Proof. split; reflexivity. Qed.

Lemma slow_thing_commute_witness :
  ∃ image1 image2 image',
    slow_thing (Numpy.zeros 2 2) 0 1 = Ok image1 ∧
    slow_thing image1 (-1) 0 = Ok image' ∧
    slow_thing (Numpy.zeros 2 2) (-1) 0 = Ok image2 ∧
    slow_thing image2 0 1 = Ok image'.
Proof.
  apply (slow_thing_commute (Numpy.zeros 2 2) 0 1 (-1) 0 0 1 1 0);
    (reflexivity || congruence).
Defined.

Lemma count_nuclei_propagates_witness :
  count_nuclei ([] : tile) fresh
  = (Raise (RuntimeError 61), World [ProcessingImageOfSize (0, 0)] 0).
Proof.
  apply (proj1 (count_nuclei_propagates ([] : tile) fresh (RuntimeError 61) 0)).
  reflexivity.
Defined.

Lemma count_nuclei_between_witness :
  ∃ q,
    value (count_nuclei (image mixed)) fresh = Ok [[q]] ∧
    1 ≤ 2 ∧ (inject_Z 1 <= q)%Q ∧ (q <= inject_Z 2)%Q.
Proof.
  apply (count_nuclei_between (CleLaws0:=cle_laws) (image mixed) fresh
           (labels mixed) (label_intensity_map mixed)
           (high_intensity_labels mixed) (labels_without_borders mixed)).
  - segmented_sample.
  - vm_compute. lia.
Defined.

Lemma count_nuclei_edge_objects_half_witness :
  ∃ q,
    value (count_nuclei (image mixed)) fresh = Ok [[q]] ∧
    (q == inject_Z 2 - inject_Z 1 / 2)%Q.
Proof.
  apply (count_nuclei_edge_objects_half (CleLaws0:=cle_laws)
           (image mixed) fresh
           (labels mixed) (label_intensity_map mixed)
           (high_intensity_labels mixed) (labels_without_borders mixed)).
  - segmented_sample.
  - vm_compute. lia.
Defined.

Lemma count_nuclei_thin_tile_witness :
  array_max (labels_without_borders strip) = Ok 0 ∧
  value (count_nuclei (image strip)) fresh = Ok [[1 # 2]].
Proof.
  apply (count_nuclei_thin_tile (CleLaws0:=cle_laws) (image strip) fresh
           (labels strip) (label_intensity_map strip)
           (high_intensity_labels strip) (labels_without_borders strip)).
  - segmented_sample.
  - vm_compute. lia.
  - left. vm_compute. lia.
Defined.

End more_runs.

(** * Objects within the excluded range of intensities *)

Section intensity.
Import Labels CleRef.

Lemma get_map {A B} (f : A → B) (a : array2 A) r c :
  Array.get (Array.map f a) r c = f <$> Array.get a r c.
Proof.
  unfold Array.get, Array.map. rewrite list_lookup_fmap.
  destruct (a !! r); simpl; [|done]. by rewrite list_lookup_fmap.
Qed.

Lemma same_shape_get {A B} (a : array2 A) (b : array2 B) r c x :
  Array.same_shape a b → Array.get a r c = Some x →
  is_Some (Array.get b r c).
Proof.
  unfold Array.get. intros Hs Hx.
  destruct (a !! r) as [rowa|] eqn:Ha; simpl in Hx; [|done].
  assert (is_Some (b !! r)) as [rowb Hb].
  { apply lookup_lt_is_Some. rewrite <-(same_shape_length a b Hs).
    by eapply lookup_lt_Some. }
  rewrite Hb. simpl. apply lookup_lt_is_Some.
  rewrite <-(same_shape_row a b r rowa rowb Hs Ha Hb).
  by eapply lookup_lt_Some.
Qed.

(** In arrays of one shape, the elements paired row after row sit at
    the same place. *)
Lemma elem_of_zip_ravel {A B} (a : array2 A) (b : array2 B) x y :
  Array.same_shape a b →
  (x, y) ∈ zip (Array.ravel a) (Array.ravel b) →
  ∃ r c, Array.get a r c = Some x ∧ Array.get b r c = Some y.
Proof.
  unfold Array.same_shape, Array.ravel, Array.get. revert b.
  induction a as [|ra a IH]; intros [|rb b] Hs Hin; simplify_eq/=.
  { by apply elem_of_nil in Hin. }
  rewrite zip_with_app in Hin by done.
  apply elem_of_app in Hin as [Hin|Hin].
  - apply elem_of_lookup_zip_with in Hin as (c & x' & y' & ? & ? & ?).
    simplify_eq. by exists 0, c.
  - destruct (IH b) as (r & c & ? & ?); [done..|]. by exists (S r), c.
Qed.

Lemma elem_of_intensities (values : tile) (L : label_image) l v :
  v ∈ intensities values L l →
  v ∈ Array.ravel values ∧
  (Array.same_shape L values →
   ∃ r c, Array.get L r c = Some l ∧ Array.get values r c = Some v).
Proof.
  unfold intensities. intros ([l' v'] & -> & Hp)%list_elem_of_fmap.
  apply list_elem_of_filter in Hp as [Hl Hp]. simpl in Hl. subst l'.
  split; [by eapply elem_of_zip_r|]. intros Hs. by apply elem_of_zip_ravel.
Qed.

Lemma sum_bounds (hi : Q) (vs : list Q) :
  Forall (λ v, 0 <= v <= hi)%Q vs →
  (0 <= foldr Qplus 0 vs <= inject_Z (Z.of_nat (length vs)) * hi)%Q.
Proof.
  induction 1 as [|v vs [? ?] _ [? ?]]; simpl foldr; simpl length.
  { split; [apply Qle_refl|]. rewrite Qmult_0_l. apply Qle_refl. }
  rewrite Nat2Z.inj_succ, <-Z.add_1_r, inject_Z_plus.
  split; [lra|].
  assert ((inject_Z (Z.of_nat (length vs)) + inject_Z 1) * hi
          == inject_Z (Z.of_nat (length vs)) * hi + hi)%Q as -> by ring.
  lra.
Qed.

(** A mean of values between 0 and [hi] lies between 0 and [hi]. *)
Lemma mean_bounds (hi : Q) (vs : list Q) :
  Forall (λ v, 0 <= v <= hi)%Q vs → (0 <= hi)%Q →
  (0 <= mean vs <= hi)%Q.
Proof.
  intros Hvs Hhi. destruct (sum_bounds hi vs Hvs) as [Hlo Hup].
  unfold mean. destruct vs as [|v vs].
  { split; [apply Qle_refl|done]. }
  assert (0 < inject_Z (Z.of_nat (length (v :: vs))))%Q as Hn.
  { unfold Qlt. simpl. lia. }
  split.
  - apply Qle_shift_div_l; [done|]. by rewrite Qmult_0_l.
  - apply Qle_shift_div_r; [done|]. by rewrite Qmult_comm.
Qed.

Lemma cle_intensity_laws : CleIntensityLaws nat.
Proof.
  split.
  - intros image L d V d' [-> _]%kernel_Ok. split; [apply same_shape_map|].
    intros r c l v Hl. unfold mean_intensities. rewrite get_map, Hl.
    by intros [= <-].
  - intros values L lo hi d H d' [-> _]%kernel_Ok Hs.
    exists (renumber (outside_range values L lo hi)). split; [done|].
    intros l Hrange. apply renumber_not_kept.
    intros [Hout _]%elem_of_filter. apply Hout.
    apply Forall_forall. intros v Hv.
    apply elem_of_intensities in Hv as [_ Hv].
    destruct (Hv Hs) as (r & c & Hl & Hval).
    destruct (Hrange r c Hl) as (v' & Hval' & Hlo & Hhi). simplify_eq.
    unfold within. apply andb_True. split; apply Is_true_true, Qle_bool_iff; done.
Qed.

End intensity.

Section dim.
Import Labels.
Context {D : Type} `{!Cle D} `{!CleLaws D} `{!CleIntensityLaws D}.

(** When no pixel of the tile is brighter than 20, every label has a
    mean intensity within 0..20, and the exclusion leaves no object. *)
Lemma dim_no_objects image (d : D) L V H W :
  segmented image d L V H W →
  Forall (Forall (λ v, 0 <= v <= 20)%Q) image →
  objects H = ∅.
Proof.
  intros (d1 & d2 & d3 & d4 & HL & HV & HH & HW) Hdim.
  destruct (mean_intensity_map_mean _ _ _ _ _ HV) as [Hs Hmean].
  destruct (exclude_labels_with_map_values_within_range_removed
              _ _ _ _ _ _ _ HH Hs) as (f & -> & Hf).
  assert (∀ l, f l = 0) as Hzero.
  { intros l. apply Hf. intros r c Hl.
    destruct (same_shape_get L V r c l Hs Hl) as [v Hv].
    exists v. split; [done|]. rewrite (Hmean r c l v Hl Hv).
    apply mean_bounds; [|done].
    apply Forall_forall. intros x [Hx _]%elem_of_intensities.
    apply list_elem_of_join in Hx as (row & Hx & Hrow).
    rewrite Forall_forall in Hdim. apply Hdim in Hrow.
    rewrite Forall_forall in Hrow. by apply Hrow. }
  apply no_objects_iff. intros l. rewrite ravel_map.
  intros (l' & -> & _)%list_elem_of_fmap. apply Hzero.
Qed.

Lemma dim_count image (w : world D) L V H W :
  segmented image (device w) L V H W →
  0 < Array.size image →
  Forall (Forall (λ v, 0 <= v <= 20)%Q) image →
  value (count_nuclei image) w = Ok [[average 0 0]].
Proof.
  intros Hseg Hpos Hdim.
  destruct (segmented_counts _ _ _ _ _ _ Hseg Hpos) as [HA HB].
  destruct (segmented_labels _ _ _ _ _ _ Hseg)
    as (_ & _ & _ & _ & _ & HeW).
  pose proof (dim_no_objects _ _ _ _ _ _ Hseg Hdim) as HH.
  assert (num_objects H = 0) as HnH.
  { unfold num_objects. by rewrite HH, size_empty. }
  assert (num_objects W = 0) as HnW.
  { rewrite (edges_excluded_num_objects H W HeW).
    pose proof (subseteq_size _ _ (interior_subseteq H)) as Hle.
    fold (num_objects H) in Hle. lia. }
  rewrite HnH in HA. rewrite HnW in HB.
  by eapply count_nuclei_returns.
Qed.

(** C4: on a tile with pixels, all of them zero, that the library
    segments, the corrected count is 0: whatever labels the segmentation
    gives, their mean intensity 0 lies within the range 0..20 and the
    exclusion removes them. *)
Theorem count_nuclei_background image (w : world D) L V H W :
  segmented image (device w) L V H W →
  0 < Array.size image →
  Forall (Forall (λ v, v == 0)%Q) image →
  ∃ q, value (count_nuclei image) w = Ok [[q]] ∧ (q == 0)%Q.
Proof.
  intros Hseg Hpos Hzero. exists (average 0 0). split; [|done].
  eapply dim_count; [done..|].
  eapply Forall_impl; [exact Hzero|]. intros row Hrow.
  eapply Forall_impl; [exact Hrow|]. intros v Hv. simpl in Hv.
  rewrite Hv. split; [apply Qle_refl|done].
Qed.


End dim.

Section dim_runs.
Import Labels Tiles.

Ltac segmented_sample :=
  exists 1, 2, 3, 4; split_and!; reflexivity.

Lemma count_nuclei_background_witness :
  ∃ q, value (count_nuclei (image blank)) fresh = Ok [[q]] ∧ (q == 0)%Q.
Proof.
  apply (count_nuclei_background (CleLaws0:=cle_laws)
           (CleIntensityLaws0:=cle_intensity_laws) (image blank) fresh
           (labels blank) (label_intensity_map blank)
           (high_intensity_labels blank) (labels_without_borders blank)).
  - segmented_sample.
  - vm_compute. lia.
  - vm_compute. repeat constructor.
Defined.




Example count_nuclei_waited_for_or_not :
  value (count_nuclei (Cle0:=CleRef.asynchronous) (image border_nucleus))
        (World [] true) = Ok [[1 # 2]] ∧
  value (count_nuclei (Cle0:=CleRef.asynchronous) (image border_nucleus))
        (World [] false) = Ok [[0 # 2]].
Proof. split; reflexivity. Qed.

End dim_runs.
